(** * Frame.tsx: the Spotify session and now-playing retrieval logic

    A shallow embedding of [src/components/Frame.tsx].  The component keeps
    four pieces of React state ([currentTrack], [isPlaying], [isLoading],
    [isAuthenticated]), one browser-local credential slot
    ([localStorage], key [spotify_access_token]) and reads the page
    fragment ([window.location.hash]).  Its logic lives in one asynchronous
    callback, [fetchNowPlaying]; [SpotifyCard] draws the state, and
    [Frame] ties the two together.

    Modelling choices:
    - the browser state the component touches is one record, [World];
    - the code runs in a small state-and-exception monad [Eff] that also
      records, in program order, the observable events of a run (state
      setter calls, storage writes, HTTP requests, console output);
    - the music service is a parameter, [Service]: what each of the two
      requests settles to for a given [Authorization] header;
    - JSON payloads are taken at the TypeScript types the source declares
      for them; a body that does not parse makes [json()] reject;
    - strings are byte strings;
    - state setters take effect in program order, one invocation at a
      time: rendering, React's batching of updates and overlapping
      invocations are not part of the model. *)

From Stdlib Require Import ZArith Lia.
From stdpp Require Import gmap strings list.

Open Scope string_scope.
Open Scope Z_scope.

(** ** Spotify API types *)

Record Artist := { artist_name : string }.

Record Image := { image_url : string }.

Record Album := { album_name : string; images : list Image }.

Record ExternalUrls := { spotify : string }.

Record SpotifyTrack := {
  track_id : string;
  track_name : string;
  artists : list Artist;
  album : Album;
  external_urls : ExternalUrls
}.

Record SpotifyCurrentlyPlaying := {
  is_playing : bool;
  item : option SpotifyTrack
}.

(** The recently-played payload is untyped in the source; this is the shape
    the code reads: [data.items] (possibly missing), and for its first
    entry [.track]. *)
Record PlayHistory := { track : SpotifyTrack }.

Record RecentlyPlayed := { items : option (list PlayHistory) }.

(** ** The HTTP boundary *)

(** A [Response] as the code looks at it: [status], and what [json()]
    resolves to ([None] when it rejects). *)
Record Response (A : Type) := { status : Z; json : option A }.
Arguments status {A} _.
Arguments json {A} _.

(** [response.ok]: the status is in the range 200-299. *)
Definition ok {A} (r : Response A) : bool :=
  (200 <=? status r) && (status r <=? 299).

(** What the promise returned by [fetch] settles to. *)
Inductive Settled (A : Type) :=
| Rejected
| Resolved (r : A).
Arguments Rejected {A}.
Arguments Resolved {A} r.

(** The service, per endpoint, as a function of the [Authorization]
    header of the request.  One invocation of [fetchNowPlaying] sends at
    most one request to each endpoint, so a function loses nothing there;
    where two invocations are compared, the service is taken to answer the
    second as it answered the first. *)
Record Service := {
  currently_playing : string -> Settled (Response SpotifyCurrentlyPlaying);
  recently_played : string -> Settled (Response RecentlyPlayed)
}.

Definition currently_playing_url : string :=
  "https://api.spotify.com/v1/me/player/currently-playing".

Definition recently_played_url : string :=
  "https://api.spotify.com/v1/me/player/recently-played?limit=1".

Definition spotify_access_token : string := "spotify_access_token".

(** The template literal [`Bearer ${token}`]. *)
Definition bearer (token : string) : string := "Bearer " +:+ token.

(** ** Browser state, events and the effect monad *)

Record World := {
  localStorage : gmap string string;
  location_hash : string;
  currentTrack : option SpotifyTrack;
  isPlaying : bool;
  isLoading : bool;
  isAuthenticated : bool
}.

Inductive Error :=
| TypeError      (* [fetch] rejected: the request itself failed *)
| SyntaxError.   (* [json()] rejected: the body is not the expected JSON *)

Inductive Event :=
| EvSetCurrentTrack (t : option SpotifyTrack)
| EvSetIsPlaying (b : bool)
| EvSetIsLoading (b : bool)
| EvSetIsAuthenticated (b : bool)
| EvSetItem (key value : string)
| EvRemoveItem (key : string)
| EvSetHash (h : string)
| EvFetch (url authorization : string)
| EvConsoleError (e : Error).

Inductive Completion (A : Type) :=
| Normal (a : A)
| Throw (e : Error).
Arguments Normal {A} a.
Arguments Throw {A} e.

Record Run (A : Type) := {
  completion : Completion A;
  world : World;
  events : list Event
}.
Arguments completion {A} _.
Arguments world {A} _.
Arguments events {A} _.

Definition Eff (A : Type) : Type := World -> Run A.

Definition ret {A} (a : A) : Eff A :=
  fun w => {| completion := Normal a; world := w; events := [] |}.

Definition throw {A} (e : Error) : Eff A :=
  fun w => {| completion := Throw e; world := w; events := [] |}.

Definition bind {A B} (m : Eff A) (k : A -> Eff B) : Eff B :=
  fun w =>
    match m w with
    | {| completion := Normal a; world := w1; events := l1 |} =>
        match k a w1 with
        | {| completion := c; world := w2; events := l2 |} =>
            {| completion := c; world := w2; events := l1 ++ l2 |}
        end
    | {| completion := Throw e; world := w1; events := l1 |} =>
        {| completion := Throw e; world := w1; events := l1 |}
    end.

Declare Scope eff_scope.
Delimit Scope eff_scope with eff.
Notation "x <- m ;; k" := (bind m (fun x => k))
  (at level 100, m at next level, right associativity) : eff_scope.
Notation "m ;; k" := (bind m (fun _ => k))
  (at level 100, right associativity) : eff_scope.

(** [try { body } catch (error) { handler error }] *)
Definition try_catch {A} (body : Eff A) (handler : Error -> Eff A) : Eff A :=
  fun w =>
    match body w with
    | {| completion := Throw e; world := w1; events := l1 |} =>
        match handler e w1 with
        | {| completion := c; world := w2; events := l2 |} =>
            {| completion := c; world := w2; events := l1 ++ l2 |}
        end
    | r => r
    end.

(** [try { body } finally { fin }]: [fin] runs however [body] completes,
    and the completion of [body] stands unless [fin] itself throws. *)
Definition try_finally {A} (body : Eff A) (fin : Eff unit) : Eff A :=
  fun w =>
    match body w with
    | {| completion := c; world := w1; events := l1 |} =>
        match fin w1 with
        | {| completion := Normal _; world := w2; events := l2 |} =>
            {| completion := c; world := w2; events := l1 ++ l2 |}
        | {| completion := Throw e; world := w2; events := l2 |} =>
            {| completion := Throw e; world := w2; events := l1 ++ l2 |}
        end
    end.

(** An effect that changes the world and emits one event. *)
Definition act (f : World -> World) (ev : Event) : Eff unit :=
  fun w => {| completion := Normal tt; world := f w; events := [ev] |}.

(** *** React state setters *)

Definition setCurrentTrack (t : option SpotifyTrack) : Eff unit :=
  act (fun w => {| localStorage := localStorage w;
                   location_hash := location_hash w;
                   currentTrack := t;
                   isPlaying := isPlaying w;
                   isLoading := isLoading w;
                   isAuthenticated := isAuthenticated w |})
      (EvSetCurrentTrack t).

Definition setIsPlaying (b : bool) : Eff unit :=
  act (fun w => {| localStorage := localStorage w;
                   location_hash := location_hash w;
                   currentTrack := currentTrack w;
                   isPlaying := b;
                   isLoading := isLoading w;
                   isAuthenticated := isAuthenticated w |})
      (EvSetIsPlaying b).

Definition setIsLoading (b : bool) : Eff unit :=
  act (fun w => {| localStorage := localStorage w;
                   location_hash := location_hash w;
                   currentTrack := currentTrack w;
                   isPlaying := isPlaying w;
                   isLoading := b;
                   isAuthenticated := isAuthenticated w |})
      (EvSetIsLoading b).

Definition setIsAuthenticated (b : bool) : Eff unit :=
  act (fun w => {| localStorage := localStorage w;
                   location_hash := location_hash w;
                   currentTrack := currentTrack w;
                   isPlaying := isPlaying w;
                   isLoading := isLoading w;
                   isAuthenticated := b |})
      (EvSetIsAuthenticated b).

(** *** localStorage *)

Definition with_localStorage (m : gmap string string) (w : World) : World :=
  {| localStorage := m;
     location_hash := location_hash w;
     currentTrack := currentTrack w;
     isPlaying := isPlaying w;
     isLoading := isLoading w;
     isAuthenticated := isAuthenticated w |}.

(** [localStorage.getItem(key)]: the stored string, or [null]. *)
Definition getItem (key : string) : Eff (option string) :=
  fun w => {| completion := Normal (localStorage w !! key);
              world := w; events := [] |}.

Definition setItem (key value : string) : Eff unit :=
  act (fun w => with_localStorage (<[key := value]> (localStorage w)) w)
      (EvSetItem key value).

Definition removeItem (key : string) : Eff unit :=
  act (fun w => with_localStorage (delete key (localStorage w)) w)
      (EvRemoveItem key).

(** *** fetch, json and the console *)

(** [await fetch(url, { headers: { Authorization: authorization } })]:
    the request is issued, then the promise either resolves to a response
    or rejects, which throws at the [await]. *)
Definition fetch {A} (url authorization : string)
    (endpoint : string -> Settled (Response A)) : Eff (Response A) :=
  fun w =>
    {| completion := match endpoint authorization with
                     | Resolved r => Normal r
                     | Rejected => Throw TypeError
                     end;
       world := w;
       events := [EvFetch url authorization] |}.

(** [await response.json()] *)
Definition await_json {A} (r : Response A) : Eff A :=
  match json r with
  | Some data => ret data
  | None => throw SyntaxError
  end.

Definition console_error (e : Error) : Eff unit :=
  act (fun w => w) (EvConsoleError e).

(** ** fetchNowPlaying (Frame.tsx, lines 133-179) *)

Definition fetchNowPlaying (svc : Service) : Eff unit :=
  (setIsLoading true ;;
   try_finally
     (try_catch
        (token <- getItem spotify_access_token ;;
         match token with
         | Some (String _ _ as token) =>
             response <- fetch currently_playing_url (bearer token)
                               (currently_playing svc) ;;
             if status response =? 204 then
               recentlyPlayed <- fetch recently_played_url (bearer token)
                                       (recently_played svc) ;;
               if ok recentlyPlayed then
                 data <- await_json recentlyPlayed ;;
                 match items data with
                 | Some (entry :: _) =>
                     setCurrentTrack (Some (track entry)) ;;
                     setIsPlaying false
                 | _ => ret tt
                 end
               else ret tt
             else if ok response then
               data <- await_json response ;;
               setCurrentTrack (item data) ;;
               setIsPlaying (is_playing data)
             else if status response =? 401 then
               removeItem spotify_access_token ;;
               setIsAuthenticated false
             else ret tt
         | _ =>
             (* [!token]: [null] or the empty string *)
             setIsLoading false
         end)
        (fun error => console_error error))
     (setIsLoading false))%eff.

(** ** Reading a run *)

(** [CredentialStore.read()]: the stored token, if any. *)
Definition stored_token (w : World) : option string :=
  localStorage w !! spotify_access_token.

(** The run of [fetchNowPlaying] from [w] against [svc]; the card's
    [onRefresh] is this very callback. *)
Definition refresh (svc : Service) (w : World) : Run unit :=
  fetchNowPlaying svc w.

(** The requests of a run, in the order they were issued. *)
Fixpoint requests (evs : list Event) : list (string * string) :=
  match evs with
  | [] => []
  | EvFetch url authorization :: rest => (url, authorization) :: requests rest
  | _ :: rest => requests rest
  end.

(** The playback updates ([setCurrentTrack], [setIsPlaying]) of a run. *)
Fixpoint playback_updates (evs : list Event) : list Event :=
  match evs with
  | [] => []
  | EvSetCurrentTrack t :: rest => EvSetCurrentTrack t :: playback_updates rest
  | EvSetIsPlaying b :: rest => EvSetIsPlaying b :: playback_updates rest
  | _ :: rest => playback_updates rest
  end.

(** Replays the events from a given value of the loading flag and checks
    that every request is issued while the flag is up. *)
Fixpoint requests_while_loading (loading : bool) (evs : list Event) : bool :=
  match evs with
  | [] => true
  | EvSetIsLoading b :: rest => requests_while_loading b rest
  | EvFetch _ _ :: rest => loading && requests_while_loading loading rest
  | _ :: rest => requests_while_loading loading rest
  end.

(** The arguments of the [setIsLoading] calls of a run, in order. *)
Fixpoint loading_calls (evs : list Event) : list bool :=
  match evs with
  | [] => []
  | EvSetIsLoading b :: rest => b :: loading_calls rest
  | _ :: rest => loading_calls rest
  end.

(** Replays the events from a given value of the loading flag and checks
    that everything a run does besides moving the flag (requests,
    playback and authentication updates, storage writes, console output)
    happens while the flag is up. *)
Fixpoint busy_while_loading (loading : bool) (evs : list Event) : bool :=
  match evs with
  | [] => true
  | EvSetIsLoading b :: rest => busy_while_loading b rest
  | _ :: rest => loading && busy_while_loading loading rest
  end.

(** The world a run leaves behind once it has resolved: storage [ls],
    playback state [t] and [p], authentication flag [a], the fragment of
    [w], and the loading flag down. *)
Definition resolved (ls : gmap string string) (t : option SpotifyTrack)
    (p a : bool) (w : World) : World :=
  {| localStorage := ls;
     location_hash := location_hash w;
     currentTrack := t;
     isPlaying := p;
     isLoading := false;
     isAuthenticated := a |}.

(** [w] with nothing changed but the loading flag, which is down. *)
Definition settled (w : World) : World :=
  resolved (localStorage w) (currentTrack w) (isPlaying w) (isAuthenticated w) w.

(** A token that [fetchNowPlaying] accepts is stored: [getItem] returns a
    non-empty string. *)
Definition connected (w : World) (token : string) : Prop :=
  stored_token w = Some token /\ token <> "".

(** The ways a retrieval fails without the credential being at fault,
    for requests bearing [authorization]: a request that does not
    complete, a non-success status other than 401 on the first request,
    or a success response whose body does not parse. *)
Inductive transient (svc : Service) (authorization : string) : Prop :=
| first_request_failed :
    currently_playing svc authorization = Rejected ->
    transient svc authorization
| first_status_unexpected r :
    currently_playing svc authorization = Resolved r ->
    ok r = false -> status r <> 401 ->
    transient svc authorization
| first_body_malformed r :
    currently_playing svc authorization = Resolved r ->
    ok r = true -> status r <> 204 -> json r = None ->
    transient svc authorization
| history_request_failed r :
    currently_playing svc authorization = Resolved r ->
    status r = 204 ->
    recently_played svc authorization = Rejected ->
    transient svc authorization
| history_body_malformed r r2 :
    currently_playing svc authorization = Resolved r ->
    status r = 204 ->
    recently_played svc authorization = Resolved r2 ->
    ok r2 = true -> json r2 = None ->
    transient svc authorization.

(** ** Sample data *)

Definition song_a : SpotifyTrack :=
  {| track_id := "t1"; track_name := "Song A";
     artists := [ {| artist_name := "Artist A" |} ];
     album := {| album_name := "Album A";
                 images := [ {| image_url := "http://x/a.jpg" |} ] |};
     external_urls := {| spotify := "http://open/a" |} |}.

Definition song_b : SpotifyTrack :=
  {| track_id := "t2"; track_name := "Song B";
     artists := [ {| artist_name := "Artist B" |} ];
     album := {| album_name := "Album B"; images := [] |};
     external_urls := {| spotify := "http://open/b" |} |}.

(** The component as mounted: the [useState] initial values, nothing
    stored, no fragment. *)
Definition initial_world : World :=
  {| localStorage := ∅; location_hash := "";
     currentTrack := None; isPlaying := false;
     isLoading := false; isAuthenticated := false |}.

(** A connected session showing [song_a] as playing, token ["tok1"]. *)
Definition listening_world : World :=
  {| localStorage := {[ spotify_access_token := "tok1" ]};
     location_hash := "";
     currentTrack := Some song_a; isPlaying := true;
     isLoading := false; isAuthenticated := true |}.

(** A connected session showing [song_a] as last played, token ["tok1"]. *)
Definition paused_world : World :=
  {| localStorage := {[ spotify_access_token := "tok1" ]};
     location_hash := "";
     currentTrack := Some song_a; isPlaying := false;
     isLoading := false; isAuthenticated := true |}.

(** The page on return from the authorization endpoint, before the
    component has done anything. *)
Definition redirected_world : World :=
  {| localStorage := ∅;
     location_hash := "#access_token=abc123&token_type=Bearer";
     currentTrack := None; isPlaying := false;
     isLoading := false; isAuthenticated := false |}.

(** A service that answers every request with the given status and
    bodies. *)
Definition answering (st1 : Z) (body1 : option SpotifyCurrentlyPlaying)
    (st2 : Z) (body2 : option RecentlyPlayed) : Service :=
  {| currently_playing := fun _ => Resolved {| status := st1; json := body1 |};
     recently_played := fun _ => Resolved {| status := st2; json := body2 |} |}.

(** A service that cannot be reached. *)
Definition unreachable : Service :=
  {| currently_playing := fun _ => Rejected;
     recently_played := fun _ => Rejected |}.

(** A service with nothing active whose history request fails at the
    network level. *)
Definition history_unreachable : Service :=
  {| currently_playing := fun _ => Resolved {| status := 204; json := None |};
     recently_played := fun _ => Rejected |}.

(** ** The rendered view (SpotifyCard, lines 35-106)

    JSX is kept as the tree the component returns: an element has a type
    (the tag or the UI component's name), its props in source order and
    its children.  Event handlers are the actions they perform. *)

Inductive Action :=
| NavigateTo (href : string)        (* [window.location.href = href] *)
| WindowOpen (url target : string)  (* [window.open(url, target)] *)
| OnRefresh.                        (* the [onRefresh] prop *)

Inductive PropValue :=
| PString (s : string)
| PBool (b : bool)
| PHandler (a : Action).

#[local] Set Warnings "-register-all".
Inductive Node :=
| Text (s : string)
| Element (type : string) (props : list (string * PropValue))
    (children : list Node).

(** [names.join(", ")] *)
Definition join (sep : string) (l : list string) : string :=
  String.concat sep l.

Definition SpotifyCard (currentTrack : option SpotifyTrack)
    (isPlaying isLoading : bool) : Node :=
  match currentTrack with
  | None =>
      Element "Card" [("className", PString "w-full")]
        [ Element "CardHeader" []
            [ Element "CardTitle" [] [Text "Spotify Now Playing"];
              Element "CardDescription" []
                [Text "Connect with Spotify to see what you're listening to"] ];
          Element "CardContent"
            [("className",
              PString "flex flex-col items-center justify-center py-6")]
            [ Element "Button"
                [("onClick", PHandler (NavigateTo "/api/spotify/login"));
                 ("className",
                  PString "bg-green-500 hover:bg-green-600 text-white")]
                [Text "Connect Spotify"] ] ]
  | Some currentTrack =>
      Element "Card" [("className", PString "w-full")]
        [ Element "CardHeader" []
            [ Element "CardTitle" [("className", PString "text-lg")]
                [Text (if isPlaying then "Now Playing" else "Last Played")] ];
          Element "CardContent"
            [("className", PString "flex flex-col items-center")]
            (match images (album currentTrack) with
             | image0 :: _ =>
                 [ Element "img"
                     [("src", PString (image_url image0));
                      ("alt",
                       PString (album_name (album currentTrack) +:+ " cover"));
                      ("className",
                       PString "w-32 h-32 rounded-md shadow-md mb-4")]
                     [] ]
             | [] => []
             end ++
             [ Element "div" [("className", PString "text-center")]
                 [ Element "h3" [("className", PString "font-bold text-lg")]
                     [Text (track_name currentTrack)];
                   Element "p" [("className", PString "text-sm text-gray-500")]
                     [Text (join ", " (map artist_name (artists currentTrack)))];
                   Element "p"
                     [("className", PString "text-xs text-gray-400 mt-1")]
                     [Text (album_name (album currentTrack))] ] ]);
          Element "CardFooter" [("className", PString "flex justify-between")]
            [ Element "Button"
                [("onClick", PHandler OnRefresh);
                 ("disabled", PBool isLoading);
                 ("size", PString "sm");
                 ("variant", PString "outline")]
                [Text (if isLoading then "Refreshing..." else "Refresh")];
              Element "Button"
                [("onClick",
                  PHandler (WindowOpen (spotify (external_urls currentTrack))
                                       "_blank"));
                 ("size", PString "sm");
                 ("className",
                  PString "bg-green-500 hover:bg-green-600 text-white")]
                [Text "Open in Spotify"] ] ]
  end.

(** ** Frame, the function component (lines 108-210)

    One render is the body of [Frame] run top to bottom.  [const
    fetchNowPlaying] is declared on line 133: the name is in scope from
    the top of the body but cannot be read before that line has run.  A
    render is modelled with the two things that matter for this: whether
    the constant has been initialised, and which effects [useEffect] has
    registered so far. *)

Inductive RenderError :=
| ReferenceError (name : string).  (* a [const] read before initialisation *)

(** The effects of [Frame], by what their comment in the source says. *)
Inductive EffectId :=
| CheckAuthenticated   (* lines 118-124 *)
| SignalReady          (* lines 127-131 *)
| AuthCallback.        (* lines 182-194 *)

Record Scope := {
  fetchNowPlaying_initialised : bool;
  registered : list EffectId
}.

Definition Render (A : Type) : Type := Scope -> (RenderError + A) * Scope.

Definition render_ret {A} (a : A) : Render A := fun sc => (inr a, sc).

Definition render_bind {A B} (m : Render A) (k : A -> Render B) : Render B :=
  fun sc =>
    match m sc with
    | (inr a, sc1) => k a sc1
    | (inl e, sc1) => (inl e, sc1)
    end.

Declare Scope render_scope.
Delimit Scope render_scope with render.
Notation "m ;; k" := (render_bind m (fun _ => k))
  (at level 100, right associativity) : render_scope.

(** Reading [fetchNowPlaying], as the dependency arrays
    [[fetchNowPlaying]] do. *)
Definition read_fetchNowPlaying : Render unit :=
  fun sc =>
    if fetchNowPlaying_initialised sc then (inr tt, sc)
    else (inl (ReferenceError "fetchNowPlaying"), sc).

(** [const fetchNowPlaying = useCallback(...)] *)
Definition declare_fetchNowPlaying : Render unit :=
  fun sc => (inr tt, {| fetchNowPlaying_initialised := true;
                        registered := registered sc |}).

(** [useEffect(effect, deps)], once its arguments have been evaluated. *)
Definition useEffect (effect : EffectId) : Render unit :=
  fun sc => (inr tt, {| fetchNowPlaying_initialised :=
                          fetchNowPlaying_initialised sc;
                        registered := registered sc ++ [effect] |}).

(** The body of [Frame].  [isSDKLoaded] comes from [useFrameSDK]; the
    four [useState] values are those of [w]. *)
Definition Frame (isSDKLoaded : bool) (w : World) : Render Node :=
  ((* lines 118-124: useEffect(() => ..., [fetchNowPlaying]) *)
   read_fetchNowPlaying ;;
   useEffect CheckAuthenticated ;;
   (* lines 127-131: useEffect(() => ..., [sdk, isSDKLoaded]) *)
   useEffect SignalReady ;;
   (* lines 133-179 *)
   declare_fetchNowPlaying ;;
   (* lines 182-194: useEffect(() => ..., [fetchNowPlaying]) *)
   read_fetchNowPlaying ;;
   useEffect AuthCallback ;;
   (* lines 196-209 *)
   render_ret
     (if negb isSDKLoaded then Element "div" [] [Text "Loading..."]
      else
        Element "div" [("className", PString "w-[300px] mx-auto py-2 px-2")]
          [ SpotifyCard (currentTrack w) (isPlaying w) (isLoading w) ]))%render.

(** A render starts with nothing initialised and nothing registered. *)
Definition entering : Scope :=
  {| fetchNowPlaying_initialised := false; registered := [] |}.

(** *** Reading a view *)

Definition Action_eqb (a b : Action) : bool :=
  match a, b with
  | NavigateTo h, NavigateTo h' => String.eqb h h'
  | WindowOpen u t, WindowOpen u' t' => String.eqb u u' && String.eqb t t'
  | OnRefresh, OnRefresh => true
  | _, _ => false
  end.

(** The value of prop [name] of an element. *)
Fixpoint lookup_prop (name : string) (props : list (string * PropValue))
    : option PropValue :=
  match props with
  | [] => None
  | (n, v) :: rest => if String.eqb n name then Some v else lookup_prop name rest
  end.

Definition prop_of (name : string) (n : Node) : option PropValue :=
  match n with
  | Text _ => None
  | Element _ props _ => lookup_prop name props
  end.

(** The handlers of a view, in document order. *)
Fixpoint handlers (n : Node) : list Action :=
  match n with
  | Text _ => []
  | Element _ props children =>
      flat_map (fun p => match snd p with PHandler a => [a] | _ => [] end) props
      ++ flat_map handlers children
  end.

(** The elements of type [type] of a view, in document order. *)
Fixpoint elements_of (type : string) (n : Node) : list Node :=
  match n with
  | Text _ => []
  | Element t props children =>
      (if String.eqb t type then [n] else [])
      ++ flat_map (elements_of type) children
  end.

(** The text of a view, in document order. *)
Fixpoint texts (n : Node) : list string :=
  match n with
  | Text s => [s]
  | Element _ _ children => flat_map texts children
  end.

(** The buttons of a view whose click performs [a]. *)
Definition buttons_for (a : Action) (n : Node) : list Node :=
  List.filter (fun b => match prop_of "onClick" b with
                        | Some (PHandler a') => Action_eqb a' a
                        | _ => false
                        end)
              (elements_of "Button" n).

(** ** Reading the service *)

(** The currently-playing request with header [authorization] is
    answered with status 204. *)
Definition no_content (svc : Service) (authorization : string) : bool :=
  match currently_playing svc authorization with
  | Resolved r => status r =? 204
  | Rejected => false
  end.

(** The currently-playing request with header [authorization] is
    answered with status 401. *)
Definition unauthorized (svc : Service) (authorization : string) : bool :=
  match currently_playing svc authorization with
  | Resolved r => status r =? 401
  | Rejected => false
  end.

(** * Properties *)

Arguments bearer : simpl never.
Arguments refresh : simpl never.

Lemma connected_cons w token :
  connected w token ->
  exists c s, token = String c s /\
              localStorage w !! spotify_access_token = Some (String c s).
Proof.
  intros [Hget Hne]. destruct token as [|c s]; [congruence|].
  exists c, s. split; [reflexivity | exact Hget].
Qed.

Ltac unfold_run :=
  unfold refresh, fetchNowPlaying, try_finally, try_catch, bind, fetch,
    await_json, getItem, setCurrentTrack, setIsPlaying, setIsLoading,
    setIsAuthenticated, removeItem, console_error, act, ret, throw.

(** Runs [fetchNowPlaying] from a connected world up to the first
    response. *)
Ltac run_connected H :=
  let c := fresh "c" in
  let s := fresh "s" in
  let Hget := fresh "Hget" in
  destruct (connected_cons _ _ H) as (c & s & -> & Hget);
  unfold_run; cbn; rewrite Hget; cbn.

Lemma ok_204 {A} (r : Response A) : status r = 204 -> ok r = true.
Proof. intros H. unfold ok. rewrite H. reflexivity. Qed.

Lemma not_ok_not_204 {A} (r : Response A) :
  ok r = false -> (status r =? 204) = false.
Proof.
  intros H. apply Z.eqb_neq. intros E. rewrite (ok_204 r E) in H. discriminate.
Qed.

Lemma ok_200 {A} (r : Response A) : status r = 200 -> ok r = true.
Proof. intros H. unfold ok. rewrite H. reflexivity. Qed.

(** ** The run of fetchNowPlaying, path by path *)

(** Without a stored token (or with an empty one) no request is issued. *)
Lemma disconnected_run svc w :
  (stored_token w = None \/ stored_token w = Some "") ->
  refresh svc w =
    {| completion := Normal tt;
       world := settled w;
       events := [EvSetIsLoading true; EvSetIsLoading false;
                  EvSetIsLoading false] |}.
Proof.
  unfold stored_token. intros [H|H]; unfold_run; cbn; rewrite H; reflexivity.
Qed.

Section Connected.
Variable svc : Service.
Variable w : World.
Variable token : string.
Hypothesis Hconn : connected w token.

Lemma rejected_run :
  currently_playing svc (bearer token) = Rejected ->
  refresh svc w =
    {| completion := Normal tt;
       world := settled w;
       events := [EvSetIsLoading true;
                  EvFetch currently_playing_url (bearer token);
                  EvConsoleError TypeError;
                  EvSetIsLoading false] |}.
Proof. intros Hr. run_connected Hconn. rewrite Hr. reflexivity. Qed.

Lemma unexpected_status_run r :
  currently_playing svc (bearer token) = Resolved r ->
  ok r = false -> status r <> 401 ->
  refresh svc w =
    {| completion := Normal tt;
       world := settled w;
       events := [EvSetIsLoading true;
                  EvFetch currently_playing_url (bearer token);
                  EvSetIsLoading false] |}.
Proof.
  intros Hr Hok Hst. run_connected Hconn. rewrite Hr.
  rewrite (not_ok_not_204 r Hok), Hok.
  apply Z.eqb_neq in Hst. rewrite Hst. reflexivity.
Qed.

Lemma unauthorized_run r :
  currently_playing svc (bearer token) = Resolved r ->
  status r = 401 ->
  refresh svc w =
    {| completion := Normal tt;
       world := resolved (delete spotify_access_token (localStorage w))
                  (currentTrack w) (isPlaying w) false w;
       events := [EvSetIsLoading true;
                  EvFetch currently_playing_url (bearer token);
                  EvRemoveItem spotify_access_token;
                  EvSetIsAuthenticated false;
                  EvSetIsLoading false] |}.
Proof.
  intros Hr Hst. run_connected Hconn. rewrite Hr.
  unfold ok. rewrite Hst. reflexivity.
Qed.

Lemma success_run r data :
  currently_playing svc (bearer token) = Resolved r ->
  ok r = true -> status r <> 204 -> json r = Some data ->
  refresh svc w =
    {| completion := Normal tt;
       world := resolved (localStorage w) (item data) (is_playing data)
                  (isAuthenticated w) w;
       events := [EvSetIsLoading true;
                  EvFetch currently_playing_url (bearer token);
                  EvSetCurrentTrack (item data);
                  EvSetIsPlaying (is_playing data);
                  EvSetIsLoading false] |}.
Proof.
  intros Hr Hok Hst Hjs. run_connected Hconn. rewrite Hr.
  apply Z.eqb_neq in Hst. rewrite Hst, Hok, Hjs. reflexivity.
Qed.

Lemma malformed_run r :
  currently_playing svc (bearer token) = Resolved r ->
  ok r = true -> status r <> 204 -> json r = None ->
  refresh svc w =
    {| completion := Normal tt;
       world := settled w;
       events := [EvSetIsLoading true;
                  EvFetch currently_playing_url (bearer token);
                  EvConsoleError SyntaxError;
                  EvSetIsLoading false] |}.
Proof.
  intros Hr Hok Hst Hjs. run_connected Hconn. rewrite Hr.
  apply Z.eqb_neq in Hst. rewrite Hst, Hok, Hjs. reflexivity.
Qed.

(** *** Nothing active: the recently-played fallback *)

Section Fallback.
Variable r : Response SpotifyCurrentlyPlaying.
Hypothesis Hfirst : currently_playing svc (bearer token) = Resolved r.
Hypothesis Hnone : status r = 204.

Lemma history_rejected_run :
  recently_played svc (bearer token) = Rejected ->
  refresh svc w =
    {| completion := Normal tt;
       world := settled w;
       events := [EvSetIsLoading true;
                  EvFetch currently_playing_url (bearer token);
                  EvFetch recently_played_url (bearer token);
                  EvConsoleError TypeError;
                  EvSetIsLoading false] |}.
Proof.
  intros Hr2. run_connected Hconn. rewrite Hfirst, Hnone. cbn.
  rewrite Hr2. reflexivity.
Qed.

Lemma history_not_ok_run r2 :
  recently_played svc (bearer token) = Resolved r2 ->
  ok r2 = false ->
  refresh svc w =
    {| completion := Normal tt;
       world := settled w;
       events := [EvSetIsLoading true;
                  EvFetch currently_playing_url (bearer token);
                  EvFetch recently_played_url (bearer token);
                  EvSetIsLoading false] |}.
Proof.
  intros Hr2 Hok. run_connected Hconn. rewrite Hfirst, Hnone. cbn.
  rewrite Hr2, Hok. reflexivity.
Qed.

Lemma history_malformed_run r2 :
  recently_played svc (bearer token) = Resolved r2 ->
  ok r2 = true -> json r2 = None ->
  refresh svc w =
    {| completion := Normal tt;
       world := settled w;
       events := [EvSetIsLoading true;
                  EvFetch currently_playing_url (bearer token);
                  EvFetch recently_played_url (bearer token);
                  EvConsoleError SyntaxError;
                  EvSetIsLoading false] |}.
Proof.
  intros Hr2 Hok Hjs. run_connected Hconn. rewrite Hfirst, Hnone. cbn.
  rewrite Hr2, Hok, Hjs. reflexivity.
Qed.

Lemma history_item_run r2 data entry rest :
  recently_played svc (bearer token) = Resolved r2 ->
  ok r2 = true -> json r2 = Some data ->
  items data = Some (entry :: rest) ->
  refresh svc w =
    {| completion := Normal tt;
       world := resolved (localStorage w) (Some (track entry)) false
                  (isAuthenticated w) w;
       events := [EvSetIsLoading true;
                  EvFetch currently_playing_url (bearer token);
                  EvFetch recently_played_url (bearer token);
                  EvSetCurrentTrack (Some (track entry));
                  EvSetIsPlaying false;
                  EvSetIsLoading false] |}.
Proof.
  intros Hr2 Hok Hjs Hit. run_connected Hconn. rewrite Hfirst, Hnone. cbn.
  rewrite Hr2, Hok, Hjs. cbn. rewrite Hit. reflexivity.
Qed.

Lemma history_empty_run r2 data :
  recently_played svc (bearer token) = Resolved r2 ->
  ok r2 = true -> json r2 = Some data ->
  items data = None \/ items data = Some [] ->
  refresh svc w =
    {| completion := Normal tt;
       world := settled w;
       events := [EvSetIsLoading true;
                  EvFetch currently_playing_url (bearer token);
                  EvFetch recently_played_url (bearer token);
                  EvSetIsLoading false] |}.
Proof.
  intros Hr2 Hok Hjs Hit. run_connected Hconn. rewrite Hfirst, Hnone. cbn.
  rewrite Hr2, Hok, Hjs. cbn. destruct Hit as [-> | ->]; reflexivity.
Qed.
End Fallback.
End Connected.

(** ** Sample runs *)

Lemma listening_connected : connected listening_world "tok1".
Proof. split; [reflexivity | discriminate]. Qed.

(** ** The currently-playing request succeeds *)

(** A 200 response carrying a paused item: the item is shown, and the
    playing flag is the payload's, which is down. *)
Example paused_item_run :
  let run := refresh (answering 200 (Some {| is_playing := false;
                                             item := Some song_b |})
                                200 None) listening_world in
  currentTrack (world run) = Some song_b /\ isPlaying (world run) = false.
Proof. split; reflexivity. Qed.

(** C1, as written, fails: for a valid token and a 200 response with a
    payload it would have [isPlaying] set to true whatever the payload
    says; a payload whose [is_playing] is false leaves the flag false. *)
Lemma playing_flag_counterexample :
  ~ (forall svc w token r data,
       connected w token ->
       currently_playing svc (bearer token) = Resolved r ->
       status r = 200 -> json r = Some data ->
       isPlaying (world (refresh svc w)) = true /\
       currentTrack (world (refresh svc w)) = item data).
Proof.
  intros H.
  destruct (H (answering 200 (Some {| is_playing := false;
                                      item := Some song_b |}) 200 None)
              listening_world "tok1"
              {| status := 200;
                 json := Some {| is_playing := false; item := Some song_b |} |}
              {| is_playing := false; item := Some song_b |}
              listening_connected eq_refl eq_refl eq_refl) as [Hplaying _].
  vm_compute in Hplaying. discriminate Hplaying.
Qed.

(** C1 (amended): for every valid token, when the currently-playing
    request returns a success (200) response with a payload, the track is
    set equal to the payload's item and [isPlaying] is set to the
    payload's [is_playing] flag. *)
Theorem success_sets_track_and_flag svc w token r data :
  connected w token ->
  currently_playing svc (bearer token) = Resolved r ->
  status r = 200 -> json r = Some data ->
  currentTrack (world (refresh svc w)) = item data /\
  isPlaying (world (refresh svc w)) = is_playing data /\
  playback_updates (events (refresh svc w)) =
    [EvSetCurrentTrack (item data); EvSetIsPlaying (is_playing data)].
Proof.
  intros Hconn Hr Hst Hjs.
  assert (Hne : status r <> 204) by (rewrite Hst; discriminate).
  rewrite (success_run svc w token Hconn r data Hr (ok_200 r Hst) Hne Hjs).
  repeat split.
Qed.

Lemma success_sets_track_and_flag_witness :
  connected listening_world "tok1" /\
  (let svc := answering 200 (Some {| is_playing := false;
                                     item := Some song_b |}) 200 None in
   currentTrack (world (refresh svc listening_world)) = Some song_b /\
   isPlaying (world (refresh svc listening_world)) = false /\
   playback_updates (events (refresh svc listening_world)) =
     [EvSetCurrentTrack (Some song_b); EvSetIsPlaying false]).
Proof.
  split; [exact listening_connected |].
  exact (success_sets_track_and_flag
           (answering 200 (Some {| is_playing := false;
                                   item := Some song_b |}) 200 None)
           listening_world "tok1"
           {| status := 200;
              json := Some {| is_playing := false; item := Some song_b |} |}
           {| is_playing := false; item := Some song_b |}
           listening_connected eq_refl eq_refl eq_refl).
Defined.

(** C2: a 200 response whose item is null is not treated as empty.
    With [song_a] on display and the token stored, such a response calls
    both setters and replaces the track by null, and the session is
    otherwise intact (token kept, [isAuthenticated] still true); the
    sibling branch, a 204 followed by an empty history, guards against
    the empty case and leaves the same display alone. *)
Theorem null_item_drops_track :
  connected listening_world "tok1" /\
  currentTrack listening_world = Some song_a /\
  currentTrack
    (world (refresh (answering 200 (Some {| is_playing := false; item := None |})
                       200 None)
                    listening_world)) = None /\
  playback_updates
    (events (refresh (answering 200 (Some {| is_playing := false; item := None |})
                        200 None)
                     listening_world))
  = [EvSetCurrentTrack None; EvSetIsPlaying false] /\
  stored_token
    (world (refresh (answering 200 (Some {| is_playing := false; item := None |})
                       200 None)
                    listening_world)) = Some "tok1" /\
  isAuthenticated
    (world (refresh (answering 200 (Some {| is_playing := false; item := None |})
                       200 None)
                    listening_world)) = true /\
  currentTrack
    (world (refresh (answering 204 None 200 (Some {| items := Some [] |}))
                    listening_world)) = Some song_a /\
  playback_updates
    (events (refresh (answering 204 None 200 (Some {| items := Some [] |}))
                     listening_world)) = [].
Proof.
  split; [exact listening_connected |]. repeat split.
Qed.

(** ** The credential is rejected *)

(** C3: when the currently-playing request returns 401, the stored
    credential is cleared, so that reading the store afterwards returns
    absent (also from a store the token was just written to),
    [isAuthenticated] becomes false, and the track and [isPlaying] are
    left unchanged. *)
Theorem unauthorized_clears_credential svc token r :
  token <> "" ->
  currently_playing svc (bearer token) = Resolved r ->
  status r = 401 ->
  (forall w, stored_token w = Some token ->
     stored_token (world (refresh svc w)) = None /\
     isAuthenticated (world (refresh svc w)) = false /\
     currentTrack (world (refresh svc w)) = currentTrack w /\
     isPlaying (world (refresh svc w)) = isPlaying w /\
     playback_updates (events (refresh svc w)) = []) /\
  (forall w0,
     stored_token
       (world (refresh svc (world (setItem spotify_access_token token w0))))
     = None).
Proof.
  intros Hne Hr Hst.
  assert (Hall : forall w, stored_token w = Some token ->
            refresh svc w =
              {| completion := Normal tt;
                 world := resolved (delete spotify_access_token (localStorage w))
                            (currentTrack w) (isPlaying w) false w;
                 events := [EvSetIsLoading true;
                            EvFetch currently_playing_url (bearer token);
                            EvRemoveItem spotify_access_token;
                            EvSetIsAuthenticated false;
                            EvSetIsLoading false] |}).
  { intros w Hw. apply unauthorized_run with (r := r); [split|..]; assumption. }
  split.
  - intros w Hw. rewrite (Hall w Hw). cbn.
    repeat split. unfold stored_token. cbn. apply lookup_delete_eq.
  - intros w0. rewrite Hall.
    + unfold stored_token. cbn. apply lookup_delete_eq.
    + unfold stored_token. cbn. apply lookup_insert_eq.
Qed.

Lemma unauthorized_clears_credential_witness :
  "tok1" <> "" /\
  (let svc := answering 401 None 200 None in
   (forall w, stored_token w = Some "tok1" ->
      stored_token (world (refresh svc w)) = None /\
      isAuthenticated (world (refresh svc w)) = false /\
      currentTrack (world (refresh svc w)) = currentTrack w /\
      isPlaying (world (refresh svc w)) = isPlaying w /\
      playback_updates (events (refresh svc w)) = []) /\
   (forall w0,
      stored_token
        (world (refresh svc (world (setItem spotify_access_token "tok1" w0))))
      = None)).
Proof.
  assert (Hne : "tok1" <> "") by discriminate.
  split; [exact Hne |].
  exact (unauthorized_clears_credential (answering 401 None 200 None) "tok1"
           {| status := 401; json := None |} Hne eq_refl eq_refl).
Defined.

(** ** Nothing active: falling back on the play history *)

(** C4: for every token, when the currently-playing request answers 204
    and the recently-played request returns a non-empty history, the
    track is set to the first (most recent) history entry's track and
    [isPlaying] is set to false. *)
Theorem fallback_shows_last_played svc w token r r2 data entry rest :
  connected w token ->
  currently_playing svc (bearer token) = Resolved r ->
  status r = 204 ->
  recently_played svc (bearer token) = Resolved r2 ->
  ok r2 = true -> json r2 = Some data ->
  items data = Some (entry :: rest) ->
  currentTrack (world (refresh svc w)) = Some (track entry) /\
  isPlaying (world (refresh svc w)) = false /\
  playback_updates (events (refresh svc w)) =
    [EvSetCurrentTrack (Some (track entry)); EvSetIsPlaying false].
Proof.
  intros Hconn Hr Hst Hr2 Hok Hjs Hit.
  rewrite (history_item_run svc w token Hconn r Hr Hst r2 data entry rest
             Hr2 Hok Hjs Hit).
  repeat split.
Qed.

Lemma fallback_shows_last_played_witness :
  connected listening_world "tok1" /\
  (let svc := answering 204 None 200
                (Some {| items := Some [ {| track := song_b |} ] |}) in
   currentTrack (world (refresh svc listening_world)) = Some song_b /\
   isPlaying (world (refresh svc listening_world)) = false /\
   playback_updates (events (refresh svc listening_world)) =
     [EvSetCurrentTrack (Some song_b); EvSetIsPlaying false]).
Proof.
  split; [exact listening_connected |].
  exact (fallback_shows_last_played
           (answering 204 None 200
              (Some {| items := Some [ {| track := song_b |} ] |}))
           listening_world "tok1"
           {| status := 204; json := None |}
           {| status := 200;
              json := Some {| items := Some [ {| track := song_b |} ] |} |}
           {| items := Some [ {| track := song_b |} ] |}
           {| track := song_b |} []
           listening_connected eq_refl eq_refl eq_refl eq_refl eq_refl eq_refl).
Defined.

(** C6: for every token, when the currently-playing request answers 204
    and the recently-played request reports no items, no playback update
    is emitted and the track and [isPlaying] are as before; the run
    changes nothing but the loading flag, and running it again changes
    nothing more. *)
Theorem empty_history_keeps_playback svc w token r r2 data :
  connected w token ->
  currently_playing svc (bearer token) = Resolved r ->
  status r = 204 ->
  recently_played svc (bearer token) = Resolved r2 ->
  ok r2 = true -> json r2 = Some data ->
  items data = None \/ items data = Some [] ->
  currentTrack (world (refresh svc w)) = currentTrack w /\
  isPlaying (world (refresh svc w)) = isPlaying w /\
  playback_updates (events (refresh svc w)) = [] /\
  world (refresh svc w) = settled w /\
  world (refresh svc (world (refresh svc w))) = world (refresh svc w).
Proof.
  intros Hconn Hr Hst Hr2 Hok Hjs Hit.
  assert (Hrun : forall w', connected w' token ->
            refresh svc w' =
              {| completion := Normal tt;
                 world := settled w';
                 events := [EvSetIsLoading true;
                            EvFetch currently_playing_url (bearer token);
                            EvFetch recently_played_url (bearer token);
                            EvSetIsLoading false] |}).
  { intros w' Hw'.
    exact (history_empty_run svc w' token Hw' r Hr Hst r2 data Hr2 Hok Hjs Hit). }
  rewrite (Hrun w Hconn). cbn. repeat split.
  rewrite Hrun; [reflexivity | exact Hconn].
Qed.

Lemma empty_history_keeps_playback_witness :
  connected listening_world "tok1" /\
  (let svc := answering 204 None 200 (Some {| items := Some [] |}) in
   currentTrack (world (refresh svc listening_world)) = Some song_a /\
   isPlaying (world (refresh svc listening_world)) = true /\
   playback_updates (events (refresh svc listening_world)) = [] /\
   world (refresh svc listening_world) = settled listening_world /\
   world (refresh svc (world (refresh svc listening_world))) =
     world (refresh svc listening_world)).
Proof.
  split; [exact listening_connected |].
  exact (empty_history_keeps_playback
           (answering 204 None 200 (Some {| items := Some [] |}))
           listening_world "tok1"
           {| status := 204; json := None |}
           {| status := 200; json := Some {| items := Some [] |} |}
           {| items := Some [] |}
           listening_connected eq_refl eq_refl eq_refl eq_refl eq_refl
           (or_intror eq_refl)).
Defined.

(** C10: a 401, or any other non-ok response, on the recently-played
    request does not expire the session: the stored credential stays,
    [isAuthenticated] keeps its value (so stays true), the track and
    [isPlaying] are unchanged, and nothing is removed from the store. *)
Theorem fallback_failure_keeps_credential svc w token r r2 :
  connected w token ->
  currently_playing svc (bearer token) = Resolved r ->
  status r = 204 ->
  recently_played svc (bearer token) = Resolved r2 ->
  ok r2 = false ->
  stored_token (world (refresh svc w)) = Some token /\
  isAuthenticated (world (refresh svc w)) = isAuthenticated w /\
  currentTrack (world (refresh svc w)) = currentTrack w /\
  isPlaying (world (refresh svc w)) = isPlaying w /\
  events (refresh svc w) =
    [EvSetIsLoading true;
     EvFetch currently_playing_url (bearer token);
     EvFetch recently_played_url (bearer token);
     EvSetIsLoading false].
Proof.
  intros Hconn Hr Hst Hr2 Hok.
  rewrite (history_not_ok_run svc w token Hconn r Hr Hst r2 Hr2 Hok).
  cbn. repeat split. exact (proj1 Hconn).
Qed.

Lemma fallback_failure_keeps_credential_witness :
  connected listening_world "tok1" /\
  (let svc := answering 204 None 401 None in
   stored_token (world (refresh svc listening_world)) = Some "tok1" /\
   isAuthenticated (world (refresh svc listening_world)) = true /\
   currentTrack (world (refresh svc listening_world)) = Some song_a /\
   isPlaying (world (refresh svc listening_world)) = true /\
   events (refresh svc listening_world) =
     [EvSetIsLoading true;
      EvFetch currently_playing_url (bearer "tok1");
      EvFetch recently_played_url (bearer "tok1");
      EvSetIsLoading false]).
Proof.
  split; [exact listening_connected |].
  exact (fallback_failure_keeps_credential
           (answering 204 None 401 None) listening_world "tok1"
           {| status := 204; json := None |}
           {| status := 401; json := None |}
           listening_connected eq_refl eq_refl eq_refl eq_refl).
Defined.

(** ** Failures that are not the credential's *)

(** C7: for any non-success response other than 204 and 401, and for any
    request that throws (and also for a body that does not parse), the
    track, [isPlaying], [isAuthenticated] and the stored credential are
    left unchanged, the run ends normally, and no request is issued
    twice. *)
Theorem transient_failure_changes_nothing svc w token :
  connected w token ->
  transient svc (bearer token) ->
  completion (refresh svc w) = Normal tt /\
  world (refresh svc w) = settled w /\
  currentTrack (world (refresh svc w)) = currentTrack w /\
  isPlaying (world (refresh svc w)) = isPlaying w /\
  isAuthenticated (world (refresh svc w)) = isAuthenticated w /\
  stored_token (world (refresh svc w)) = Some token /\
  NoDup (requests (events (refresh svc w))) /\
  (length (requests (events (refresh svc w))) <= 2)%nat.
Proof.
  intros Hconn Hfail.
  assert (Hurl : (currently_playing_url, bearer token)
                 <> (recently_played_url, bearer token)) by discriminate.
  assert (Hone : NoDup [(currently_playing_url, bearer token)])
    by (apply NoDup_singleton).
  assert (Htwo : NoDup [(currently_playing_url, bearer token);
                        (recently_played_url, bearer token)]).
  { apply NoDup_cons. split; [| apply NoDup_singleton].
    intros Hin. apply list_elem_of_singleton in Hin. exact (Hurl Hin). }
  destruct Hfail as [H1 | r H1 Hok Hst | r H1 Hok Hst Hjs
                    | r H1 Hst H2 | r r2 H1 Hst H2 Hok Hjs].
  - rewrite (rejected_run svc w token Hconn H1).
    cbn. repeat split; try assumption; try lia. exact (proj1 Hconn).
  - rewrite (unexpected_status_run svc w token Hconn r H1 Hok Hst).
    cbn. repeat split; try assumption; try lia. exact (proj1 Hconn).
  - rewrite (malformed_run svc w token Hconn r H1 Hok Hst Hjs).
    cbn. repeat split; try assumption; try lia. exact (proj1 Hconn).
  - rewrite (history_rejected_run svc w token Hconn r H1 Hst H2).
    cbn. repeat split; try assumption; try lia. exact (proj1 Hconn).
  - rewrite (history_malformed_run svc w token Hconn r H1 Hst r2 H2 Hok Hjs).
    cbn. repeat split; try assumption; try lia. exact (proj1 Hconn).
Qed.

Lemma transient_failure_changes_nothing_witness :
  connected listening_world "tok1" /\
  transient unreachable (bearer "tok1") /\
  completion (refresh unreachable listening_world) = Normal tt /\
  world (refresh unreachable listening_world) = settled listening_world /\
  currentTrack (world (refresh unreachable listening_world)) = Some song_a /\
  isPlaying (world (refresh unreachable listening_world)) = true /\
  isAuthenticated (world (refresh unreachable listening_world)) = true /\
  stored_token (world (refresh unreachable listening_world)) = Some "tok1" /\
  NoDup (requests (events (refresh unreachable listening_world))) /\
  (length (requests (events (refresh unreachable listening_world))) <= 2)%nat.
Proof.
  split; [exact listening_connected |].
  split; [exact (first_request_failed unreachable (bearer "tok1") eq_refl) |].
  exact (transient_failure_changes_nothing unreachable listening_world "tok1"
           listening_connected
           (first_request_failed unreachable (bearer "tok1") eq_refl)).
Defined.

(** ** Every path at once *)

(** Splits on the path [fetchNowPlaying] takes from [w] against [svc] and
    rewrites the run to what that path produces. *)
Ltac by_paths svc w :=
  let c := fresh "c" in
  let s := fresh "s" in
  let Hst := fresh "Hstored" in
  let Hc := fresh "Hconn" in
  let r := fresh "r" in
  let r2 := fresh "r2" in
  let H1 := fresh "Hfirst" in
  let H2 := fresh "Hsecond" in
  destruct (stored_token w) as [[|c s]|] eqn:Hst;
  [ rewrite (disconnected_run svc w (or_intror Hst))
  | assert (Hc : connected w (String c s))
      by (split; [exact Hst | discriminate]);
    destruct (currently_playing svc (bearer (String c s))) as [|r] eqn:H1;
    [ rewrite (rejected_run svc w _ Hc H1)
    | let E := fresh "Hstatus" in
      destruct (Z.eq_dec (status r) 204) as [E|E];
      [ destruct (recently_played svc (bearer (String c s))) as [|r2] eqn:H2;
        [ rewrite (history_rejected_run svc w _ Hc r H1 E H2)
        | let Hok := fresh "Hok" in
          destruct (ok r2) eqn:Hok;
          [ let data := fresh "data" in
            let Hjs := fresh "Hjson" in
            destruct (json r2) as [data|] eqn:Hjs;
            [ let Hit := fresh "Hitems" in
              let entry := fresh "entry" in
              let rest := fresh "rest" in
              destruct (items data) as [[|entry rest]|] eqn:Hit;
              [ rewrite (history_empty_run svc w _ Hc r H1 E r2 data H2 Hok Hjs
                           (or_intror Hit))
              | rewrite (history_item_run svc w _ Hc r H1 E r2 data entry rest
                           H2 Hok Hjs Hit)
              | rewrite (history_empty_run svc w _ Hc r H1 E r2 data H2 Hok Hjs
                           (or_introl Hit)) ]
            | rewrite (history_malformed_run svc w _ Hc r H1 E r2 H2 Hok Hjs) ]
          | rewrite (history_not_ok_run svc w _ Hc r H1 E r2 H2 Hok) ] ]
      | let Hok := fresh "Hok" in
        destruct (ok r) eqn:Hok;
        [ let data := fresh "data" in
          let Hjs := fresh "Hjson" in
          destruct (json r) as [data|] eqn:Hjs;
          [ rewrite (success_run svc w _ Hc r data H1 Hok E Hjs)
          | rewrite (malformed_run svc w _ Hc r H1 Hok E Hjs) ]
        | let E401 := fresh "Hstatus" in
          destruct (Z.eq_dec (status r) 401) as [E401|E401];
          [ rewrite (unauthorized_run svc w _ Hc r H1 E401)
          | rewrite (unexpected_status_run svc w _ Hc r H1 Hok E401) ] ] ] ]
  | rewrite (disconnected_run svc w (or_introl Hst)) ].

(** C8: on every invocation, [isLoading] is set to true before anything
    else happens; everything the invocation does -- each request, the
    fallback one included, every playback or authentication update,
    every storage write, every logged error -- happens while the flag is
    up; [setIsLoading(false)] is the last thing that happens, and the
    flag is not moved in between: with a token stored the setter is
    called exactly twice, with true and then with false, and without one
    the run is just the raise, the guard's lowering and the final
    lowering.  The invocation ends normally with the flag down,
    whatever path it took, exceptions included. *)
Theorem loading_brackets_every_run svc w :
  completion (refresh svc w) = Normal tt /\
  head (events (refresh svc w)) = Some (EvSetIsLoading true) /\
  last (events (refresh svc w)) = Some (EvSetIsLoading false) /\
  (forall b, requests_while_loading b (events (refresh svc w)) = true) /\
  isLoading (world (refresh svc w)) = false /\
  (forall b, busy_while_loading b (events (refresh svc w)) = true) /\
  (loading_calls (events (refresh svc w)) = [true; false] \/
   events (refresh svc w) =
     [EvSetIsLoading true; EvSetIsLoading false; EvSetIsLoading false]).
Proof.
  by_paths svc w;
    (split; [reflexivity |]); (split; [reflexivity |]);
    (split; [reflexivity |]); (split; [intros b; reflexivity |]);
    (split; [reflexivity |]); (split; [intros b; reflexivity |]);
    first [ left; reflexivity | right; reflexivity ].
Qed.

Lemma urls_differ : currently_playing_url <> recently_played_url.
Proof. discriminate. Qed.

Lemma connected_functional w token token' :
  connected w token -> connected w token' -> token = token'.
Proof. intros [H _] [H' _]. rewrite H in H'. congruence. Qed.

(** C5: the recently-played request is issued if and only if a token is
    stored and the currently-playing request answers 204; so never after
    a rejected request, a 401, or any other status. *)
Theorem fallback_iff_no_content svc w :
  (exists authorization,
     In (recently_played_url, authorization) (requests (events (refresh svc w))))
  <->
  (exists token r,
     connected w token /\
     currently_playing svc (bearer token) = Resolved r /\
     status r = 204).
Proof.
  assert (Hno : forall token r,
            connected w token -> currently_playing svc (bearer token) = Resolved r ->
            status r = 204 ->
            forall token', connected w token' ->
              (currently_playing svc (bearer token') = Rejected \/
               exists r', currently_playing svc (bearer token') = Resolved r' /\
                          status r' <> 204) -> False).
  { intros token r Hc Hr Hs token' Hc' Hother.
    rewrite (connected_functional w token' token Hc' Hc) in Hother.
    destruct Hother as [Hrej | (r' & Hr' & Hs')]; congruence. }
  assert (Hoff : forall token,
            (exists authorization,
               In (recently_played_url, authorization)
                  [(currently_playing_url, bearer token)]) -> False).
  { intros token (a & [Heq | []]). apply urls_differ. congruence. }
  by_paths svc w; cbn [events requests]; split;
    try (intros (a & []); fail);
    try (intros Hin; exfalso; exact (Hoff _ Hin));
    try (intros _; eexists; right; left; reflexivity);
    try (intros _; eexists _, _; repeat split; eassumption || discriminate).
  - intros (token & r & [Hget Hne] & _). congruence.
  - intros (token & r' & Hc & Hr & Hs).
    exfalso. apply (Hno token r' Hc Hr Hs _ Hconn). left. assumption.
  - intros (token & r' & Hc & Hr & Hs).
    exfalso. apply (Hno token r' Hc Hr Hs _ Hconn). right. eauto.
  - intros (token & r' & Hc & Hr & Hs).
    exfalso. apply (Hno token r' Hc Hr Hs _ Hconn). right. eauto.
  - intros (token & r' & Hc & Hr & Hs).
    exfalso. apply (Hno token r' Hc Hr Hs _ Hconn). right. eauto.
  - intros (token & r' & Hc & Hr & Hs).
    exfalso. apply (Hno token r' Hc Hr Hs _ Hconn). right. eauto.
  - intros (token & r & [Hget Hne] & _). congruence.
Qed.

(** ** Requests and the fragment *)

Lemma connected_first_request svc w token :
  connected w token ->
  head (requests (events (refresh svc w))) =
    Some (currently_playing_url, bearer token).
Proof.
  intros Hc. pose proof Hc as [Hget Hne].
  by_paths svc w; cbn [events requests head]; congruence.
Qed.

Lemma refresh_keeps_hash svc w :
  location_hash (world (refresh svc w)) = location_hash w.
Proof. by_paths svc w; reflexivity. Qed.

(** ** Rendering Frame *)

(** C9: the callback that would take the token in is never registered.
    Every render of [Frame] throws a [ReferenceError] at the dependency
    array of the first [useEffect] (line 124), which reads
    [fetchNowPlaying] before line 133 has initialised it; no effect has
    been registered at that point, the one of lines 182-194 included,
    and no view is returned.  So on return from the authorization
    endpoint with [#access_token=abc123&token_type=Bearer] nothing is
    stored and the fragment stays. *)
Theorem frame_throws_before_auth_callback :
  (forall isSDKLoaded w,
     Frame isSDKLoaded w entering =
       (inl (ReferenceError "fetchNowPlaying"), entering)) /\
  location_hash redirected_world = "#access_token=abc123&token_type=Bearer" /\
  stored_token redirected_world = None /\
  fst (Frame true redirected_world entering)
  = inl (ReferenceError "fetchNowPlaying") /\
  registered (snd (Frame true redirected_world entering)) = [].
Proof.
  split; [intros isSDKLoaded w; reflexivity |]. repeat split.
Qed.

(** ** Scenarios *)

(** Once a 401 has cleared the credential, a manual refresh issues no
    request. *)
Lemma refresh_after_expiry svc w token r :
  connected w token ->
  currently_playing svc (bearer token) = Resolved r ->
  status r = 401 ->
  requests (events (refresh svc (world (refresh svc w)))) = [].
Proof.
  intros Hconn Hr Hst.
  rewrite (unauthorized_run svc w token Hconn r Hr Hst). cbn [world].
  rewrite disconnected_run; [reflexivity |].
  left. unfold stored_token, resolved. cbn. apply lookup_delete_eq.
Qed.

(** A history request that fails at the network level is logged and
    leaves the session as it was. *)
Example history_unreachable_run :
  events (refresh history_unreachable listening_world) =
    [EvSetIsLoading true;
     EvFetch currently_playing_url (bearer "tok1");
     EvFetch recently_played_url (bearer "tok1");
     EvConsoleError TypeError;
     EvSetIsLoading false] /\
  world (refresh history_unreachable listening_world) = listening_world.
Proof. split; reflexivity. Qed.

(** * Further properties of fetchNowPlaying *)

(** [by_paths] for a world known to hold [token]: the paths without a
    token are closed and the stored token is identified with [token]. *)
Ltac by_connected_paths svc w Hc :=
  by_paths svc w;
  try (exfalso; destruct Hc as [? ?]; congruence);
  match goal with
  | H : connected w (String _ _) |- _ =>
      pose proof (connected_functional _ _ _ Hc H); subst
  end.

Lemma disconnected_world : stored_token initial_world = None.
Proof. reflexivity. Qed.

(** Without a usable credential (nothing stored, or the empty string)
    a refresh is a guarded no-op: it ends normally, issues no request,
    emits no playback update and changes nothing but the loading flag,
    which it lowers twice. *)
Theorem missing_token_is_noop svc w :
  stored_token w = None \/ stored_token w = Some "" ->
  completion (refresh svc w) = Normal tt /\
  world (refresh svc w) = settled w /\
  events (refresh svc w) =
    [EvSetIsLoading true; EvSetIsLoading false; EvSetIsLoading false].
Proof.
  intros H. rewrite (disconnected_run svc w H). repeat split.
Qed.

Lemma missing_token_is_noop_witness :
  (stored_token initial_world = None \/ stored_token initial_world = Some "") /\
  completion (refresh unreachable initial_world) = Normal tt /\
  world (refresh unreachable initial_world) = settled initial_world /\
  events (refresh unreachable initial_world) =
    [EvSetIsLoading true; EvSetIsLoading false; EvSetIsLoading false].
Proof.
  split; [left; reflexivity |].
  exact (missing_token_is_noop unreachable initial_world (or_introl eq_refl)).
Defined.

(** A refresh issues a request exactly when a non-empty token is
    stored. *)
Theorem request_iff_token svc w :
  requests (events (refresh svc w)) <> [] <->
  exists token, connected w token.
Proof.
  by_paths svc w; cbn [events requests]; split;
    try (intros _; eexists; eassumption);
    try (intros _; discriminate);
    try (intros H; exfalso; apply H; reflexivity);
    intros (token & [Hget Hne]); congruence.
Qed.

(** The requests of a refresh from a connected world: the
    currently-playing one, followed by the recently-played one exactly
    when the first was answered 204; both bear [Bearer <stored token>],
    and there is never a third. *)
Theorem requests_of_refresh svc w token :
  connected w token ->
  requests (events (refresh svc w)) =
    (currently_playing_url, bearer token)
    :: (if no_content svc (bearer token)
        then [(recently_played_url, bearer token)] else []).
Proof.
  intros Hc. unfold no_content.
  by_connected_paths svc w Hc; cbn [events requests];
    rewrite Hfirst;
    try reflexivity;
    try (rewrite Hstatus; reflexivity);
    try (apply Z.eqb_neq in Hstatus; rewrite Hstatus; reflexivity).
Qed.

Lemma requests_of_refresh_witness :
  connected listening_world "tok1" /\
  requests (events (refresh history_unreachable listening_world)) =
    (currently_playing_url, bearer "tok1")
    :: (if no_content history_unreachable (bearer "tok1")
        then [(recently_played_url, bearer "tok1")] else []).
Proof.
  split; [exact listening_connected |].
  exact (requests_of_refresh history_unreachable listening_world "tok1"
           listening_connected).
Defined.

(** Every status in the 2xx range other than 204 is read as a payload:
    the track and [isPlaying] are taken from it, and the credential and
    [isAuthenticated] are left alone. *)
Theorem any_success_status_updates_playback svc w token r data :
  connected w token ->
  currently_playing svc (bearer token) = Resolved r ->
  200 <= status r <= 299 -> status r <> 204 ->
  json r = Some data ->
  currentTrack (world (refresh svc w)) = item data /\
  isPlaying (world (refresh svc w)) = is_playing data /\
  isAuthenticated (world (refresh svc w)) = isAuthenticated w /\
  stored_token (world (refresh svc w)) = Some token.
Proof.
  intros Hconn Hr Hrange Hne Hjs.
  assert (Hok : ok r = true).
  { unfold ok. apply andb_true_iff. split; apply Z.leb_le; lia. }
  rewrite (success_run svc w token Hconn r data Hr Hok Hne Hjs).
  cbn. repeat split. exact (proj1 Hconn).
Qed.

Lemma any_success_status_updates_playback_witness :
  connected listening_world "tok1" /\
  200 <= 299 <= 299 /\ 299 <> 204 /\
  (let svc := answering 299 (Some {| is_playing := false;
                                     item := Some song_b |}) 200 None in
   currentTrack (world (refresh svc listening_world)) = Some song_b /\
   isPlaying (world (refresh svc listening_world)) = false /\
   isAuthenticated (world (refresh svc listening_world)) = true /\
   stored_token (world (refresh svc listening_world)) = Some "tok1").
Proof.
  assert (Hrange : 200 <= 299 <= 299) by lia.
  assert (Hne : 299 <> 204) by lia.
  split; [exact listening_connected |].
  split; [exact Hrange |].
  split; [exact Hne |].
  exact (any_success_status_updates_playback
           (answering 299 (Some {| is_playing := false;
                                   item := Some song_b |}) 200 None)
           listening_world "tok1"
           {| status := 299;
              json := Some {| is_playing := false; item := Some song_b |} |}
           {| is_playing := false; item := Some song_b |}
           listening_connected eq_refl Hrange Hne eq_refl).
Defined.

Lemma refresh_credential svc w token :
  connected w token ->
  stored_token (world (refresh svc w)) =
    (if unauthorized svc (bearer token) then None else Some token) /\
  isAuthenticated (world (refresh svc w)) =
    (if unauthorized svc (bearer token) then false else isAuthenticated w).
Proof.
  intros Hc. unfold unauthorized.
  by_connected_paths svc w Hc; rewrite Hfirst; cbn [world];
    unfold stored_token, settled, resolved; cbn [localStorage isAuthenticated];
    try (rewrite Hstatus; cbn; split; [exact (proj1 Hconn) | reflexivity]);
    try (split; [exact (proj1 Hconn) | reflexivity]).
  - assert (H401 : (status r =? 401) = false).
    { apply Z.eqb_neq. intros E. unfold ok in Hok. rewrite E in Hok.
      discriminate. }
    rewrite H401. split; [exact (proj1 Hconn) | reflexivity].
  - assert (H401 : (status r =? 401) = false).
    { apply Z.eqb_neq. intros E. unfold ok in Hok. rewrite E in Hok.
      discriminate. }
    rewrite H401. split; [exact (proj1 Hconn) | reflexivity].
  - rewrite Hstatus0. cbn. split; [apply lookup_delete_eq | reflexivity].
  - apply Z.eqb_neq in Hstatus0. rewrite Hstatus0.
    split; [exact (proj1 Hconn) | reflexivity].
Qed.

(** From a connected world, the credential is gone after a refresh
    exactly when the currently-playing request was answered 401, and
    [isAuthenticated] is lowered in that case only; in every other case
    the same token is still stored and the flag keeps its value. *)
Theorem credential_cleared_iff_unauthorized svc w token :
  connected w token ->
  stored_token (world (refresh svc w)) =
    (if unauthorized svc (bearer token) then None else Some token) /\
  isAuthenticated (world (refresh svc w)) =
    (if unauthorized svc (bearer token) then false else isAuthenticated w).
Proof. exact (refresh_credential svc w token). Qed.

Lemma credential_cleared_iff_unauthorized_witness :
  connected listening_world "tok1" /\
  (let svc := answering 401 None 200 None in
   stored_token (world (refresh svc listening_world)) =
     (if unauthorized svc (bearer "tok1") then None else Some "tok1") /\
   isAuthenticated (world (refresh svc listening_world)) =
     (if unauthorized svc (bearer "tok1") then false
      else isAuthenticated listening_world)).
Proof.
  split; [exact listening_connected |].
  exact (credential_cleared_iff_unauthorized (answering 401 None 200 None)
           listening_world "tok1" listening_connected).
Defined.

(** What a refresh never does: it does not touch the page fragment, it
    leaves every other [localStorage] key as it was, it never stores a
    token (one found afterwards was there before), and it never raises
    [isAuthenticated]. *)
Theorem refresh_frame svc w :
  location_hash (world (refresh svc w)) = location_hash w /\
  (forall key, key <> spotify_access_token ->
     localStorage (world (refresh svc w)) !! key = localStorage w !! key) /\
  (forall token, stored_token (world (refresh svc w)) = Some token ->
     stored_token w = Some token) /\
  (isAuthenticated (world (refresh svc w)) = true -> isAuthenticated w = true).
Proof.
  by_paths svc w; cbn [world]; unfold stored_token, settled, resolved;
    cbn [localStorage location_hash isAuthenticated];
    (split; [reflexivity |]);
    (split; [intros key Hkey; try reflexivity; apply lookup_delete_ne; congruence |]);
    (split; [intros token H; unfold stored_token in *;
             first [ congruence | rewrite lookup_delete_eq in H; discriminate ] |]);
    intros H; first [ exact H | discriminate H ].
Qed.

(** The two playback setters always go together: a refresh either emits
    no playback update and leaves the track and [isPlaying] as they
    were, or emits exactly [setCurrentTrack] followed by [setIsPlaying],
    whose arguments are the new state. *)
Theorem playback_updated_together svc w :
  (playback_updates (events (refresh svc w)) = [] /\
   currentTrack (world (refresh svc w)) = currentTrack w /\
   isPlaying (world (refresh svc w)) = isPlaying w) \/
  (playback_updates (events (refresh svc w)) =
     [EvSetCurrentTrack (currentTrack (world (refresh svc w)));
      EvSetIsPlaying (isPlaying (world (refresh svc w)))]).
Proof.
  by_paths svc w; cbn;
    first [ left; repeat split; reflexivity | right; reflexivity ].
Qed.

(** [isPlaying] is raised only by a currently-playing payload that says
    so: if the flag is up after a refresh, either it was up before, or
    the first response carried a payload whose [is_playing] is true. *)
Theorem playing_only_from_payload svc w :
  isPlaying (world (refresh svc w)) = true ->
  isPlaying w = true \/
  exists token r data,
    connected w token /\
    currently_playing svc (bearer token) = Resolved r /\
    status r <> 204 /\ ok r = true /\
    json r = Some data /\ is_playing data = true.
Proof.
  by_paths svc w; cbn [world]; unfold settled, resolved; cbn [isPlaying];
    intros H; try (left; exact H); try discriminate H.
  right. exists (String c s), r, data.
  split; [exact Hconn |]. split; [exact Hfirst |]. split; [exact Hstatus |].
  split; [exact Hok |]. split; [exact Hjson | exact H].
Qed.

Lemma playing_only_from_payload_witness :
  (let svc := answering 200 (Some {| is_playing := true; item := Some song_a |})
                200 None in
   isPlaying (world (refresh svc paused_world)) = true /\
   (isPlaying paused_world = true \/
    exists token r data,
      connected paused_world token /\
      currently_playing svc (bearer token) = Resolved r /\
      status r <> 204 /\ ok r = true /\
      json r = Some data /\ is_playing data = true)).
Proof.
  split; [reflexivity |].
  exact (playing_only_from_payload
           (answering 200 (Some {| is_playing := true; item := Some song_a |})
              200 None)
           paused_world eq_refl).
Defined.

(** Against a service that answers as before, a second refresh changes
    nothing: the state reached by one refresh is a fixed point. *)
Theorem refresh_idempotent svc w :
  world (refresh svc (world (refresh svc w))) = world (refresh svc w).
Proof.
  by_paths svc w; cbn [world].
  - rewrite disconnected_run; [reflexivity | right; exact Hstored].
  - rewrite (rejected_run svc (settled w) _ Hconn Hfirst). reflexivity.
  - rewrite (history_rejected_run svc (settled w) _ Hconn r Hfirst Hstatus
               Hsecond). reflexivity.
  - rewrite (history_empty_run svc (settled w) _ Hconn r Hfirst Hstatus r2 data
               Hsecond Hok Hjson (or_intror Hitems)). reflexivity.
  - rewrite (history_item_run svc (resolved _ _ _ _ w) _ Hconn r Hfirst Hstatus
               r2 data entry rest Hsecond Hok Hjson Hitems). reflexivity.
  - rewrite (history_empty_run svc (settled w) _ Hconn r Hfirst Hstatus r2 data
               Hsecond Hok Hjson (or_introl Hitems)). reflexivity.
  - rewrite (history_malformed_run svc (settled w) _ Hconn r Hfirst Hstatus r2
               Hsecond Hok Hjson). reflexivity.
  - rewrite (history_not_ok_run svc (settled w) _ Hconn r Hfirst Hstatus r2
               Hsecond Hok). reflexivity.
  - rewrite (success_run svc (resolved _ _ _ _ w) _ Hconn r data Hfirst Hok
               Hstatus Hjson). reflexivity.
  - rewrite (malformed_run svc (settled w) _ Hconn r Hfirst Hok Hstatus Hjson).
    reflexivity.
  - rewrite disconnected_run.
    + reflexivity.
    + left. unfold stored_token, resolved. cbn. apply lookup_delete_eq.
  - rewrite (unexpected_status_run svc (settled w) _ Hconn r Hfirst Hok
               Hstatus0). reflexivity.
  - rewrite disconnected_run; [reflexivity | left; exact Hstored].
Qed.

Lemma refresh_after_expiry_witness :
  connected listening_world "tok1" /\
  (let svc := answering 401 None 200 None in
   requests (events (refresh svc (world (refresh svc listening_world)))) = []).
Proof.
  split; [exact listening_connected |].
  exact (refresh_after_expiry (answering 401 None 200 None) listening_world
           "tok1" {| status := 401; json := None |}
           listening_connected eq_refl eq_refl).
Defined.

(** * SpotifyCard *)

(** What the card lets the user do follows the [currentTrack] prop
    alone.  Without a track it is the connect prompt, whose only action
    is to navigate to the login route: there is no refresh button.  With
    a track the actions are refresh and open-in-Spotify at the track's
    URL in a new window. *)
Theorem card_actions t isPlaying isLoading :
  handlers (SpotifyCard t isPlaying isLoading) =
    match t with
    | None => [NavigateTo "/api/spotify/login"]
    | Some t => [OnRefresh; WindowOpen (spotify (external_urls t)) "_blank"]
    end.
Proof.
  unfold SpotifyCard. destruct t as [t|]; [| reflexivity].
  destruct (images (album t)); reflexivity.
Qed.

(** With a track there is exactly one refresh button; it is disabled
    exactly when the [isLoading] prop is true, and then reads
    "Refreshing..." instead of "Refresh". *)
Theorem refresh_button_follows_loading t isPlaying isLoading :
  map (fun b => (prop_of "disabled" b, texts b))
      (buttons_for OnRefresh (SpotifyCard (Some t) isPlaying isLoading)) =
    [(Some (PBool isLoading),
      [if isLoading then "Refreshing..." else "Refresh"])].
Proof.
  unfold SpotifyCard. destruct (images (album t)); reflexivity.
Qed.

(** The text of the track card, in reading order: the heading ("Now
    Playing" when [isPlaying], else "Last Played"), the track's name,
    the artists' names joined by a comma and a space, the album's name,
    and the two button labels. *)
Theorem track_card_texts t isPlaying isLoading :
  texts (SpotifyCard (Some t) isPlaying isLoading) =
    [ (if isPlaying then "Now Playing" else "Last Played");
      track_name t;
      join ", " (map artist_name (artists t));
      album_name (album t);
      (if isLoading then "Refreshing..." else "Refresh");
      "Open in Spotify" ].
Proof.
  unfold SpotifyCard. destruct (images (album t)); reflexivity.
Qed.

(** At most one cover is rendered: the first of the album's images,
    with the album's name followed by " cover" as its alternative text;
    an album without images gets no [img] element at all. *)
Theorem cover_image t isPlaying isLoading :
  map (fun i => (prop_of "src" i, prop_of "alt" i))
      (elements_of "img" (SpotifyCard (Some t) isPlaying isLoading)) =
    match images (album t) with
    | [] => []
    | image0 :: _ =>
        [(Some (PString (image_url image0)),
          Some (PString (album_name (album t) +:+ " cover")))]
    end.
Proof.
  unfold SpotifyCard. destruct (images (album t)); reflexivity.
Qed.
